(** * The filtration pair builder of [test_oineus.py]

    Lines 26-63 of the driver script split a sorted list of weighted
    simplices into the sub-complex [L] spanned by the selected vertices and
    the rest [not_L], glue them back together as [K] and number both lists.
    This file embeds that fragment and proves the properties the design
    document states about it. *)

From stdpp Require Import list gmap relations sorting.
From Stdlib Require Import QArith.

Local Open Scope nat_scope.

(** ** Python values and exceptions *)

(** The only exception the fragment can raise is the [IndexError] of a
    subscript that is out of range. *)
Inductive exn : Set := IndexError.

Inductive result (A : Type) : Type :=
| Ok (a : A)
| Raise (e : exn).
Arguments Ok {A} a.
Arguments Raise {A} e.

(** Sequencing: an exception skips the rest of the computation. *)
Global Instance result_bind : MBind result := λ A B k m,
  match m with
  | Ok a => k a
  | Raise e => Raise e
  end.

(** Vertex identifiers are row numbers of the point table, hence naturals.
    [sub] is the list of booleans built in lines 10-17; [sub[v]] raises
    when [v] is not below its length. *)
Definition getitem {A} (l : list A) (i : nat) : result A :=
  match l !! i with
  | Some x => Ok x
  | None => Raise IndexError
  end.

(** [b == True] and [b == False] on Python booleans. *)
Definition is_True (b : bool) : bool := Bool.eqb b true.
Definition is_False (b : bool) : bool := Bool.eqb b false.

(** A [for] loop whose body may raise: the state is threaded through the
    elements from left to right and the first exception ends the loop. *)
Fixpoint for_each {S A} (body : S → A → result S) (l : list A) (st : S)
  : result S :=
  match l with
  | [] => Ok st
  | x :: l' => st' ← body st x; for_each body l' st'
  end.

Section Builder.
(** Weights are only carried along, never inspected. *)
Context {W : Type}.

(** An element [[s[0], s[1]]] of [simplices], [L] (before line 62) and
    [not_L]: the sorted vertex list and the weight. *)
Definition wsimplex : Type := list nat * W.

(** An element [[i, s[0], s[1]]] of the numbered lists of lines 62-63. *)
Definition entry : Type := nat * list nat * W.

Definition entry_id (e : entry) : nat := e.1.1.
Definition entry_vertices (e : entry) : list nat := e.1.2.
Definition entry_weight (e : entry) : W := e.2.
Definition unnumbered (e : entry) : wsimplex := (e.1.2, e.2).

(** The two lists the loop of line 31 appends to. *)
Definition lists : Type := list wsimplex * list wsimplex.

Definition append_L (st : lists) (s : wsimplex) : lists :=
  (st.1 ++ [(s.1, s.2)], st.2).
Definition append_not_L (st : lists) (s : wsimplex) : lists :=
  (st.1, st.2 ++ [(s.1, s.2)]).

(** Lines 42-45: the inner loop, started with [sub_complex = True]; it
    returns the final value of [sub_complex].  The [break] leaves the
    remaining vertices unread. *)
Fixpoint scan (sub : list bool) (vs : list nat) : result bool :=
  match vs with
  | [] => Ok true
  | v :: vs' =>
      b ← getitem sub v;
      if is_False b then Ok false else scan sub vs'
  end.

(** Lines 33-39: the branch taken when [len(s[0]) == 1]. *)
Definition single_vertex_branch (sub : list bool) (st : lists)
    (s : wsimplex) : result lists :=
  v ← getitem s.1 0;
  b ← getitem sub v;
  if is_True b then Ok (append_L st s) else Ok (append_not_L st s).

(** Lines 41-53: the branch taken for every other length. *)
Definition general_branch (sub : list bool) (st : lists)
    (s : wsimplex) : result lists :=
  sub_complex ← scan sub s.1;
  if is_True sub_complex then Ok (append_L st s)
  else Ok (append_not_L st s).

(** Lines 32-53: the body of the loop over [simplices]. *)
Definition classify (sub : list bool) (st : lists) (s : wsimplex)
  : result lists :=
  if length s.1 =? 1 then single_vertex_branch sub st s
  else general_branch sub st s.

(** Lines 26-53. *)
Definition partition (sub : list bool) (simplices : list wsimplex)
  : result lists :=
  for_each (classify sub) simplices ([], []).

(** Lines 55-60: [K] starts empty and receives [L], then [not_L]. *)
Definition append_all {A} (K0 src : list A) : list A :=
  fold_left (λ K1 s, K1 ++ [s]) src K0.

Definition concat_K (L0 N0 : list wsimplex) : list wsimplex :=
  append_all (append_all [] L0) N0.

(** Lines 62-63: [[[i, s[0], s[1]] for i, s in enumerate(l)]]. *)
Definition numbered (l : list wsimplex) : list entry :=
  imap (λ i s, (i, s.1, s.2)) l.

(** The variables the fragment leaves behind. *)
Record built : Type := Built {
  L : list entry;
  not_L : list wsimplex;
  K : list entry
}.

(** Lines 26-63. *)
Definition build (sub : list bool) (simplices : list wsimplex)
  : result built :=
  st ← partition sub simplices;
  let K0 := concat_K st.1 st.2 in
  Ok (Built (numbered st.1) st.2 (numbered K0)).

End Builder.

Arguments wsimplex W : clear implicits.
Arguments entry W : clear implicits.
Arguments lists W : clear implicits.
Arguments built W : clear implicits.

(** ** The fragment as a transition system *)

(** The same lines read one test at a time.  The control is either at the
    head of the outer loop (line 31) with the simplices still to visit, or
    at the head of the inner loop (line 42) with the vertices of [s] still
    to read, or past line 63, or lost to an exception. *)
Inductive config (W : Type) : Type :=
| AtLoop (rest : list (wsimplex W)) (st : lists W)
| AtScan (vs : list nat) (s : wsimplex W) (rest : list (wsimplex W))
         (st : lists W)
| Finished (o : built W)
| Aborted (e : exn).
Arguments AtLoop {W} rest st.
Arguments AtScan {W} vs s rest st.
Arguments Finished {W} o.
Arguments Aborted {W} e.

Inductive step {W} (sub : list bool) : config W → config W → Prop :=
| step_finish st :
    step sub (AtLoop [] st)
      (Finished (Built (numbered st.1) st.2 (numbered (concat_K st.1 st.2))))
| step_single_in s rest st v :
    s.1 = [v] → sub !! v = Some true →
    step sub (AtLoop (s :: rest) st) (AtLoop rest (append_L st s))
| step_single_out s rest st v :
    s.1 = [v] → sub !! v = Some false →
    step sub (AtLoop (s :: rest) st) (AtLoop rest (append_not_L st s))
| step_single_raise s rest st v :
    s.1 = [v] → sub !! v = None →
    step sub (AtLoop (s :: rest) st) (Aborted IndexError)
| step_enter s rest st :
    length s.1 ≠ 1 →
    step sub (AtLoop (s :: rest) st) (AtScan s.1 s rest st)
| step_scan_next v vs s rest st :
    sub !! v = Some true →
    step sub (AtScan (v :: vs) s rest st) (AtScan vs s rest st)
| step_scan_break v vs s rest st :
    sub !! v = Some false →
    step sub (AtScan (v :: vs) s rest st) (AtLoop rest (append_not_L st s))
| step_scan_raise v vs s rest st :
    sub !! v = None →
    step sub (AtScan (v :: vs) s rest st) (Aborted IndexError)
| step_scan_end s rest st :
    step sub (AtScan [] s rest st) (AtLoop rest (append_L st s)).

Definition final {W} (c : config W) : Prop :=
  match c with
  | Finished _ | Aborted _ => True
  | _ => False
  end.

(** A run starts at line 26 with both lists empty and ends in a final
    configuration. *)
Definition runs {W} (sub : list bool) (simplices : list (wsimplex W))
    (c : config W) : Prop :=
  rtc (step sub) (AtLoop simplices ([], [])) c ∧ final c.

Definition outcome {W} (r : result (built W)) : config W :=
  match r with
  | Ok o => Finished o
  | Raise e => Aborted e
  end.

(** ** The notions of the design document *)

(** A vertex satisfies the membership predicate when [sub] holds [True] for
    it; a simplex is all-in when each of its vertices does. *)
Definition member (sub : list bool) (v : nat) : Prop := sub !! v = Some true.

Definition all_in (sub : list bool) (vs : list nat) : Prop :=
  Forall (member sub) vs.

Global Instance member_dec sub v : Decision (member sub v).
Proof. unfold member. apply _. Defined.

Global Instance all_in_dec sub vs : Decision (all_in sub vs).
Proof. unfold all_in. apply _. Defined.

(** The predicate is defined on every vertex the complex mentions. *)
Definition in_domain {W} (sub : list bool) (simplices : list (wsimplex W))
  : Prop :=
  Forall (λ s, Forall (λ v, v < length sub) s.1) simplices.

Global Instance in_domain_dec {W} sub (simplices : list (wsimplex W)) :
  Decision (in_domain sub simplices).
Proof. unfold in_domain. apply _. Defined.

(** The simplices the builder is expected to put into [L] and [not_L]. *)
Definition selected {W} (sub : list bool) (simplices : list (wsimplex W))
  : list (wsimplex W) :=
  filter (λ s, all_in sub s.1) simplices.

Definition rejected {W} (sub : list bool) (simplices : list (wsimplex W))
  : list (wsimplex W) :=
  filter (λ s, ¬ all_in sub s.1) simplices.

(** The outer loop with the general branch taken for every simplex. *)
Definition partition_general {W} (sub : list bool)
    (simplices : list (wsimplex W)) : result (lists W) :=
  for_each (general_branch sub) simplices ([], []).

(** The inner loop raises exactly when it reaches a vertex outside [sub]
    before any vertex that [sub] maps to [False]. *)
Definition reads_invalid (sub : list bool) (vs : list nat) : Prop :=
  ∃ pre v post, vs = pre ++ v :: post ∧ all_in sub pre ∧ length sub ≤ v.

(** The result the design document describes: the all-in simplices in their
    original order, numbered by position, and the same for the all-in
    simplices followed by the others. *)
Definition build_pair_spec {W} (sub : list bool)
    (simplices : list (wsimplex W)) : built W :=
  Built (numbered (selected sub simplices))
        (rejected sub simplices)
        (numbered (selected sub simplices ++ rejected sub simplices)).

(** ** The closure invariant of a filtration *)

(** A simplex is the set of its vertices; a proper face is a non-empty
    proper subset of it. *)
Definition vertex_set (vs : list nat) : gset nat := list_to_set vs.

Definition proper_face (f : gset nat) (vs : list nat) : Prop :=
  f ≠ ∅ ∧ f ⊂ vertex_set vs.

(** Every proper face of every simplex of the sequence appears at a
    position that is not later than / that is earlier than the simplex. *)
Definition faces_no_later (order : list (list nat)) : Prop :=
  ∀ i vs f, order !! i = Some vs → proper_face f vs →
    ∃ j us, j ≤ i ∧ order !! j = Some us ∧ vertex_set us = f.

Definition faces_earlier (order : list (list nat)) : Prop :=
  ∀ i vs f, order !! i = Some vs → proper_face f vs →
    ∃ j us, j < i ∧ order !! j = Some us ∧ vertex_set us = f.

(** The scenario of the design document: vertices 0 and 1 selected, 2 not. *)
Definition demo_sub : list bool := [true; true; false].
Definition demo_simplices : list (wsimplex Q) :=
  [([0], 0%Q); ([1], 0%Q); ([2], 0%Q); ([0; 1], (1 # 10)%Q); ([0; 2], (2 # 10)%Q)].

(** What the builder leaves behind in that scenario. *)
Definition demo_built : built Q :=
  Built
    [(0, [0], 0%Q); (1, [1], 0%Q); (2, [0; 1], (1 # 10)%Q)]
    [([2], 0%Q); ([0; 2], (2 # 10)%Q)]
    [(0, [0], 0%Q); (1, [1], 0%Q); (2, [0; 1], (1 # 10)%Q);
     (3, [2], 0%Q); (4, [0; 2], (2 # 10)%Q)].

(** ** The lines before the builder *)

(** Line 14: [z_val > 9 or z_val < 1].  The coordinates are finite floats,
    and a finite float compares with 9 and with 1 as the rational it
    denotes. *)
Definition outside_slab (z_val : Q) : bool :=
  negb (Qle_bool z_val 9) || negb (Qle_bool 1 z_val).

(** Lines 13-17: the body of the loop, for row [i] of the column [z]; a
    missing row makes the subscript raise. *)
Definition append_flag (z : list Q) (sub : list bool) (i : nat)
  : result (list bool) :=
  z_val ← getitem z i;
  if outside_slab z_val then Ok (sub ++ [true]) else Ok (sub ++ [false]).

(** Lines 10-17: [sub] receives one boolean for each of the first hundred
    rows. *)
Definition make_sub (z : list Q) : result (list bool) :=
  for_each (append_flag z) (seq 0 100) [].

(** [sorted] on a list of vertex identifiers: the ascending rearrangement. *)
Definition sorted (vs : list nat) : list nat := merge_sort (≤) vs.

(** Line 23: the element at index [i] is replaced, in place, by its sorted
    vertex list paired with its weight. *)
Definition sort_at {W} (simplices : list (wsimplex W)) (i : nat)
  : result (list (wsimplex W)) :=
  s ← getitem simplices i;
  Ok (<[i := (sorted s.1, s.2)]> simplices).

(** Lines 22-23: this is done for every index of [simplices]. *)
Definition sort_vertices {W} (simplices : list (wsimplex W))
  : result (list (wsimplex W)) :=
  for_each sort_at (seq 0 (length simplices)) simplices.

(** What lines 22-23 make of one element. *)
Definition sort_one {W} (s : wsimplex W) : wsimplex W := (sorted s.1, s.2).

(** * Proofs *)

Example demo_build :
  build demo_sub demo_simplices =
  Ok (Built
        [(0, [0], 0%Q); (1, [1], 0%Q); (2, [0; 1], (1 # 10)%Q)]
        [([2], 0%Q); ([0; 2], (2 # 10)%Q)]
        [(0, [0], 0%Q); (1, [1], 0%Q); (2, [0; 1], (1 # 10)%Q);
         (3, [2], 0%Q); (4, [0; 2], (2 # 10)%Q)]).
Proof. reflexivity. Qed.

(** ** The inner loop *)

(** The [break] hides the vertices behind the first [False] one; without
    it the subscript raises. *)
Example scan_stops_at_False : scan [false] [0; 7] = Ok false.
Proof. reflexivity. Qed.

Example scan_reads_outside : scan [true] [0; 7] = Raise IndexError.
Proof. reflexivity. Qed.

Example single_vertex_outside :
  build [true] [([3], 0%Q)] = Raise IndexError.
Proof. reflexivity. Qed.

(** A vertex list of length 0 takes the general branch and lands in [L]
    whatever [sub] is. *)
Example no_vertex_in_L :
  build [false] [([], 0%Q)] = Ok (Built [(0, [], 0%Q)] [] [(0, [], 0%Q)]).
Proof. reflexivity. Qed.

Lemma scan_Ok sub vs b :
  scan sub vs = Ok b → b = bool_decide (all_in sub vs).
Proof.
  unfold all_in. induction vs as [|v vs IH]; simpl.
  - by intros [= <-].
  - unfold getitem, mbind, result_bind.
    destruct (sub !! v) as [[]|] eqn:Hv; simpl; [| |done].
    + intros Hs. rewrite (IH Hs). apply bool_decide_ext.
      rewrite Forall_cons. unfold member at 1. tauto.
    + intros [= <-]. symmetry. apply bool_decide_eq_false_2.
      rewrite Forall_cons. unfold member. intros [Hm _]. congruence.
Qed.

Lemma scan_total sub vs :
  Forall (λ v, v < length sub) vs →
  scan sub vs = Ok (bool_decide (all_in sub vs)).
Proof.
  intros Hdom.
  assert (∃ b, scan sub vs = Ok b) as [b Hb];
    [|by rewrite Hb, (scan_Ok _ _ _ Hb)].
  induction Hdom as [|v vs Hv _ IH]; simpl; [by eexists|].
  apply lookup_lt_is_Some in Hv as [b Hb].
  unfold getitem, mbind, result_bind. rewrite Hb.
  destruct b; simpl; eauto.
Qed.

Lemma scan_Raise sub vs e : scan sub vs = Raise e ↔ reads_invalid sub vs.
Proof.
  unfold reads_invalid, all_in. induction vs as [|v vs IH]; simpl.
  - split; [done|]. intros (pre & ? & ? & Heq & _). by destruct pre.
  - unfold getitem, mbind, result_bind.
    destruct (sub !! v) as [[]|] eqn:Hv; simpl.
    + rewrite IH. split.
      * intros (pre & u & post & -> & Hpre & Hu).
        exists (v :: pre), u, post. split_and!; [done| |done].
        by apply Forall_cons.
      * intros (pre & u & post & Heq & Hpre & Hu).
        destruct pre as [|v' pre]; simplify_eq/=.
        -- apply lookup_ge_None in Hu. congruence.
        -- apply Forall_cons in Hpre as [_ Hpre]. eauto 6.
    + split; [done|]. intros (pre & u & post & Heq & Hpre & Hu).
      destruct pre as [|v' pre]; simplify_eq/=.
      * apply lookup_ge_None in Hu. congruence.
      * apply Forall_cons in Hpre as [Hm _]. unfold member in Hm. congruence.
    + destruct e. split; [intros _|done].
      exists [], v, vs. split_and!; [done|constructor|].
      by apply lookup_ge_None.
Qed.

Section Partition.
Context {W : Type}.
Implicit Types (s : wsimplex W) (st : lists W) (ss : list (wsimplex W)).

(** *** One iteration of the outer loop *)

Lemma single_vertex_general sub st v w :
  single_vertex_branch sub st ([v], w) = general_branch sub st ([v], w).
Proof.
  unfold single_vertex_branch, general_branch. simpl.
  unfold getitem, mbind, result_bind. simpl.
  by destruct (sub !! v) as [[]|].
Qed.

Lemma classify_general sub st s :
  classify sub st s = general_branch sub st s.
Proof.
  unfold classify. destruct (length s.1 =? 1) eqn:Hlen; [|done].
  apply Nat.eqb_eq in Hlen.
  destruct s as [[|v [|? ?]] w]; try done. apply single_vertex_general.
Qed.

Lemma classify_Ok sub st s st' :
  classify sub st s = Ok st' →
  st' = if decide (all_in sub s.1) then (st.1 ++ [s], st.2)
        else (st.1, st.2 ++ [s]).
Proof.
  rewrite classify_general. unfold general_branch, mbind, result_bind.
  destruct (scan sub s.1) as [b|] eqn:Hscan; [|done].
  apply scan_Ok in Hscan as ->. unfold append_L, append_not_L.
  destruct s as [vs w]; simpl.
  destruct (decide (all_in sub vs)) as [Hin|Hout];
    [rewrite (bool_decide_eq_true_2 _ Hin)
    |rewrite (bool_decide_eq_false_2 _ Hout)];
    by intros [= <-].
Qed.

Lemma classify_Raise sub st s e :
  classify sub st s = Raise e ↔ reads_invalid sub s.1.
Proof.
  rewrite classify_general, <- (scan_Raise _ _ e).
  unfold general_branch, mbind, result_bind.
  destruct (scan sub s.1) as [[]|e0]; [by split..|by destruct e, e0].
Qed.

Lemma classify_total sub st s :
  Forall (λ v, v < length sub) s.1 → ∃ st', classify sub st s = Ok st'.
Proof.
  intros Hdom. rewrite classify_general.
  unfold general_branch, mbind, result_bind. rewrite scan_total by done.
  destruct (is_True _); eauto.
Qed.

(** *** The outer loop *)

Lemma for_each_classify_Ok sub ss st st' :
  for_each (classify sub) ss st = Ok st' →
  st' = (st.1 ++ selected sub ss, st.2 ++ rejected sub ss).
Proof.
  unfold selected, rejected. revert st.
  induction ss as [|s ss IH]; intros st; simpl.
  - intros [= <-]. rewrite !app_nil_r. by destruct st.
  - unfold mbind, result_bind.
    destruct (classify sub st s) as [st1|] eqn:Hs; [|done].
    intros ->%IH. apply classify_Ok in Hs as ->.
    rewrite !filter_cons.
    destruct (decide (all_in sub s.1)) as [Hin|Hout]; simpl.
    + rewrite decide_False by tauto. by rewrite <- app_assoc.
    + rewrite decide_True by done. by rewrite <- app_assoc.
Qed.

Lemma for_each_classify_Raise sub ss st e :
  for_each (classify sub) ss st = Raise e ↔
  Exists (λ s, reads_invalid sub s.1) ss.
Proof.
  revert st. induction ss as [|s ss IH]; intros st; simpl.
  - by rewrite Exists_nil.
  - rewrite Exists_cons, <- (classify_Raise sub st s e).
    unfold mbind, result_bind.
    destruct (classify sub st s) as [st1|e1] eqn:Hs.
    + rewrite IH. split; [by right|by intros [|]].
    + destruct e, e1. tauto.
Qed.

Lemma for_each_classify_total sub ss st :
  in_domain sub ss → ∃ st', for_each (classify sub) ss st = Ok st'.
Proof.
  unfold in_domain. intros Hdom. revert st.
  induction Hdom as [|s ss Hs _ IH]; intros st; simpl; [by eexists|].
  destruct (classify_total sub st s Hs) as [st1 ->]. apply IH.
Qed.

Lemma partition_Ok sub ss st :
  partition sub ss = Ok st → st = (selected sub ss, rejected sub ss).
Proof. apply for_each_classify_Ok. Qed.

Lemma partition_total sub ss :
  in_domain sub ss →
  partition sub ss = Ok (selected sub ss, rejected sub ss).
Proof.
  intros Hdom.
  destruct (for_each_classify_total sub ss ([], []) Hdom) as [st Hst].
  unfold partition. by rewrite Hst, (partition_Ok _ _ _ Hst).
Qed.

End Partition.

(** ** Gluing and numbering *)

Section Build.
Context {W : Type}.
Implicit Types (s : wsimplex W) (ss : list (wsimplex W)) (o : built W).

Lemma append_all_app {A} (K0 src : list A) : append_all K0 src = K0 ++ src.
Proof.
  unfold append_all. revert K0.
  induction src as [|x src IH]; intros K0; simpl.
  - by rewrite app_nil_r.
  - by rewrite IH, <- app_assoc.
Qed.

Lemma concat_K_app (L0 N0 : list (wsimplex W)) : concat_K L0 N0 = L0 ++ N0.
Proof. unfold concat_K. by rewrite !append_all_app. Qed.

Lemma build_Ok sub ss o :
  build sub ss = Ok o → o = build_pair_spec sub ss.
Proof.
  unfold build, mbind, result_bind.
  destruct (partition sub ss) as [st|] eqn:Hst; [|done].
  apply partition_Ok in Hst as ->. simpl. rewrite concat_K_app.
  by intros [= <-].
Qed.

Lemma build_total sub ss :
  in_domain sub ss → build sub ss = Ok (build_pair_spec sub ss).
Proof.
  intros Hdom. unfold build, mbind, result_bind.
  rewrite partition_total by done. simpl. by rewrite concat_K_app.
Qed.

Lemma build_Raise sub ss e :
  build sub ss = Raise e ↔ Exists (λ s, reads_invalid sub s.1) ss.
Proof.
  rewrite <- (for_each_classify_Raise sub ss ([], []) e).
  unfold build, partition, mbind, result_bind.
  destruct (for_each _ _ _) as [?|e0]; [split; intros [=]|by destruct e, e0].
Qed.

(** *** Numbering *)

Lemma numbered_lookup (l : list (wsimplex W)) i e :
  numbered l !! i = Some e ↔ ∃ s, l !! i = Some s ∧ e = (i, s.1, s.2).
Proof.
  unfold numbered. by rewrite list_lookup_imap, fmap_Some.
Qed.

Lemma fmap_imap_forget {A B C} (g : B → C) (f : nat → A → B) (h : A → C)
    (l : list A) :
  (∀ i x, g (f i x) = h x) → g <$> imap f l = h <$> l.
Proof.
  revert f. induction l as [|x l IH]; intros f Hf; simpl; [done|].
  rewrite Hf. f_equal. apply IH. intros i y. apply Hf.
Qed.

Lemma unnumbered_numbered (l : list (wsimplex W)) :
  unnumbered <$> numbered l = l.
Proof.
  unfold numbered. rewrite (fmap_imap_forget _ _ id); [|by intros ? []].
  apply list_fmap_id.
Qed.

Lemma vertices_numbered (l : list (wsimplex W)) :
  entry_vertices <$> numbered l = l.*1.
Proof. unfold numbered. by apply fmap_imap_forget. Qed.

Lemma numbered_take (l1 l2 : list (wsimplex W)) :
  take (length l1) (numbered (l1 ++ l2)) = numbered l1.
Proof.
  unfold numbered. rewrite imap_app.
  rewrite take_app_length'; [done|]. by rewrite length_imap.
Qed.

End Build.

(** ** Closure under faces *)

Lemma faces_no_later_earlier order : faces_no_later order ↔ faces_earlier order.
Proof.
  split; intros Hcl i vs f Hi Hf.
  - destruct (Hcl i vs f Hi Hf) as (j & us & Hji & Hj & Hus).
    exists j, us. split_and!; [|done..].
    destruct (decide (j = i)) as [->|]; [|lia].
    destruct Hf as [_ [_ Hne]]. destruct Hne. congruence.
  - destruct (Hcl i vs f Hi Hf) as (j & us & Hji & Hj & Hus).
    exists j, us. split_and!; [lia|done..].
Qed.

(** The same invariant read on a cut of the sequence. *)
Lemma faces_earlier_split order :
  faces_earlier order ↔
  ∀ pre vs post f, order = pre ++ vs :: post → proper_face f vs →
    ∃ us, us ∈ pre ∧ vertex_set us = f.
Proof.
  split.
  - intros Hcl pre vs post f -> Hf.
    destruct (Hcl (length pre) vs f) as (j & us & Hj & Hus & Hset);
      [by apply list_lookup_middle|done|].
    exists us. split; [|done].
    rewrite lookup_app_l in Hus by done. by eapply list_elem_of_lookup_2.
  - intros Hcl i vs f Hi Hf.
    destruct (Hcl (take i order) vs (drop (S i) order) f) as (us & Hus & Hset);
      [by rewrite take_drop_middle|done|].
    apply list_elem_of_lookup_1 in Hus as [j Hj].
    pose proof (lookup_lt_Some _ _ _ Hj) as Hlt. rewrite length_take in Hlt.
    exists j, us. split_and!; [lia| |done].
    by rewrite lookup_take_lt in Hj by lia.
Qed.

(** Cutting a filtered list cuts the list it was filtered from. *)
Lemma filter_eq_middle {A} (P : A → Prop) `{!∀ x, Decision (P x)}
    (l pre' post' : list A) x :
  filter P l = pre' ++ x :: post' →
  ∃ pre post, l = pre ++ x :: post ∧ pre' = filter P pre ∧
    post' = filter P post ∧ P x.
Proof.
  revert pre'. induction l as [|y l IH]; intros pre'.
  - intros Heq. by destruct pre'.
  - rewrite filter_cons. destruct (decide (P y)) as [Hy|Hy].
    + destruct pre' as [|z pre']; simpl; intros [= -> Heq].
      * exists [], l. by rewrite filter_nil.
      * destruct (IH _ Heq) as (pre & post & -> & -> & -> & Hx).
        exists (z :: pre), post. by rewrite filter_cons_True.
    + intros Heq. destruct (IH _ Heq) as (pre & post & -> & -> & -> & Hx).
      exists (y :: pre), post. by rewrite filter_cons_False.
Qed.

Lemma all_in_face sub vs us :
  all_in sub vs → vertex_set us ⊆ vertex_set vs → all_in sub us.
Proof.
  unfold all_in, vertex_set. rewrite !Forall_forall. intros Hvs Hsub u Hu.
  apply Hvs. apply (elem_of_list_to_set (C:=gset nat)), Hsub.
  by apply elem_of_list_to_set.
Qed.

Lemma faces_earlier_filter sub order :
  faces_earlier order → faces_earlier (filter (all_in sub) order).
Proof.
  rewrite !faces_earlier_split. intros Hcl pre' vs post' f Heq Hf.
  apply filter_eq_middle in Heq as (pre & post & -> & -> & -> & Hvs).
  destruct (Hcl pre vs post f) as (us & Hus & <-); [done..|].
  exists us. split; [|done]. apply list_elem_of_filter. split; [|done].
  apply (all_in_face sub vs); [done|]. by destruct Hf as [_ [? _]].
Qed.

Lemma faces_earlier_reorder sub order :
  faces_earlier order →
  faces_earlier (filter (all_in sub) order
                 ++ filter (λ vs, ¬ all_in sub vs) order).
Proof.
  intros Hcl i vs f Hi Hf. apply lookup_app_Some in Hi as [Hi|[Hlen Hi]].
  - destruct (faces_earlier_filter sub order Hcl i vs f Hi Hf)
      as (j & us & Hj & Hus & Hset).
    exists j, us. split_and!; [done| |done]. by apply lookup_app_l_Some.
  - set (rest := filter (λ vs, ¬ all_in sub vs) order) in *.
    pose proof (take_drop_middle _ _ _ Hi) as Hcut. symmetry in Hcut.
    apply filter_eq_middle in Hcut as (pre & post & Horder & Hpre & _ & _).
    destruct (proj1 (faces_earlier_split order) Hcl pre vs post f Horder Hf)
      as (us & Hus & Hset).
    destruct (decide (all_in sub us)) as [Hin|Hout].
    + assert (us ∈ filter (all_in sub) order) as [j Hj]%list_elem_of_lookup_1.
      { apply list_elem_of_filter. split; [done|].
        rewrite Horder. apply elem_of_app. by left. }
      exists j, us. split_and!; [|by apply lookup_app_l_Some|done].
      apply lookup_lt_Some in Hj. lia.
    + assert (us ∈ take (i - length (filter (all_in sub) order)) rest)
        as [j Hj]%list_elem_of_lookup_1.
      { rewrite Hpre. by apply list_elem_of_filter. }
      pose proof (lookup_lt_Some _ _ _ Hj) as Hlt. rewrite length_take in Hlt.
      rewrite lookup_take_lt in Hj by lia.
      exists (length (filter (all_in sub) order) + j), us.
      split_and!; [lia| |done].
      rewrite lookup_app_r by lia. by replace (_ + j - _) with j by lia.
Qed.

Lemma fmap_fst_selected {W} sub (ss : list (wsimplex W)) :
  (selected sub ss).*1 = filter (all_in sub) ss.*1.
Proof.
  unfold selected. induction ss as [|s ss IH]; [done|].
  rewrite fmap_cons, !filter_cons. simpl.
  destruct (decide (all_in sub s.1)); [rewrite fmap_cons; f_equal|]; apply IH.
Qed.

Lemma fmap_fst_rejected {W} sub (ss : list (wsimplex W)) :
  (rejected sub ss).*1 = filter (λ vs, ¬ all_in sub vs) ss.*1.
Proof.
  unfold rejected. induction ss as [|s ss IH]; [done|].
  rewrite fmap_cons, !filter_cons. simpl.
  destruct (decide (¬ all_in sub s.1)); [rewrite fmap_cons; f_equal|];
    apply IH.
Qed.

(** ** The transition system *)

Section Machine.
Context {W : Type}.
Implicit Types (s : wsimplex W) (ss rest : list (wsimplex W)) (st : lists W).
Implicit Types (c : config W).

Lemma step_deterministic sub c c1 c2 :
  step sub c c1 → step sub c c2 → c1 = c2.
Proof.
  intros H1 H2.
  destruct H1; inversion H2; subst; simpl in *;
    try congruence; try done;
    repeat match goal with
           | H : ?x = [_], H' : ?x = [_] |- _ => rewrite H in H'; clear H
           | H : length ?x ≠ 1, H' : ?x = [_] |- _ => by rewrite H' in H
           end;
    simplify_eq; congruence.
Qed.

Lemma final_stuck sub c c' : final c → ¬ step sub c c'.
Proof. intros Hc Hstep. by destruct Hstep. Qed.

Lemma rtc_final_unique sub c c1 c2 :
  rtc (step sub) c c1 → final c1 → rtc (step sub) c c2 → final c2 → c1 = c2.
Proof.
  intros Hrun1. revert c2.
  induction Hrun1 as [c|c c' c1 Hstep _ IH]; intros c2 Hf1 Hrun2 Hf2.
  - inversion Hrun2 as [|? c'' ? Hstep _]; subst; [done|].
    by destruct (final_stuck sub c c'').
  - inversion Hrun2 as [|? c'' ? Hstep' Hrun2']; subst.
    + by destruct (final_stuck sub c2 c').
    + rewrite <- (step_deterministic _ _ _ _ Hstep Hstep') in Hrun2'.
      by apply IH.
Qed.

(** The inner loop of the function is the [AtScan] part of a run. *)
Lemma scan_steps sub vs s rest st :
  rtc (step sub) (AtScan vs s rest st)
    match scan sub vs with
    | Ok b => AtLoop rest (if is_True b then append_L st s
                           else append_not_L st s)
    | Raise e => Aborted e
    end.
Proof.
  induction vs as [|v vs IH]; simpl.
  - apply rtc_once. constructor.
  - unfold getitem, mbind, result_bind.
    destruct (sub !! v) as [[]|] eqn:Hv; simpl.
    + eapply rtc_l; [by apply step_scan_next|done].
    + apply rtc_once. by apply step_scan_break.
    + apply rtc_once. by apply step_scan_raise.
Qed.

Lemma classify_steps sub s rest st :
  rtc (step sub) (AtLoop (s :: rest) st)
    match classify sub st s with
    | Ok st' => AtLoop rest st'
    | Raise e => Aborted e
    end.
Proof.
  unfold classify. destruct (length s.1 =? 1) eqn:Hlen.
  - apply Nat.eqb_eq in Hlen.
    destruct s as [[|v [|? ?]] w]; try done.
    unfold single_vertex_branch, getitem, mbind, result_bind. simpl.
    destruct (sub !! v) as [[]|] eqn:Hv; simpl; apply rtc_once.
    + by eapply step_single_in.
    + by eapply step_single_out.
    + by eapply step_single_raise.
  - apply Nat.eqb_neq in Hlen.
    eapply rtc_l; [by apply step_enter|].
    unfold general_branch, mbind, result_bind.
    pose proof (scan_steps sub s.1 s rest st) as Hscan.
    destruct (scan sub s.1) as [b|e]; [|done]. by destruct (is_True b).
Qed.

Lemma for_each_steps sub ss st :
  rtc (step sub) (AtLoop ss st)
    (outcome (st' ← for_each (classify sub) ss st;
              Ok (Built (numbered st'.1) st'.2
                        (numbered (concat_K st'.1 st'.2))))).
Proof.
  revert st. induction ss as [|s ss IH]; intros st; simpl.
  - apply rtc_once. constructor.
  - pose proof (classify_steps sub s ss st) as Hs.
    unfold mbind, result_bind in *.
    destruct (classify sub st s) as [st1|e]; [|done].
    etrans; [done|]. apply IH.
Qed.

Lemma build_runs sub ss : runs sub ss (outcome (build sub ss)).
Proof.
  split; [apply for_each_steps|].
  by destruct (build sub ss).
Qed.

Lemma runs_build sub ss c : runs sub ss c → c = outcome (build sub ss).
Proof.
  intros [Hrun Hfinal]. destruct (build_runs sub ss) as [Hrun' Hfinal'].
  by eapply rtc_final_unique.
Qed.

End Machine.

(** * The properties of the design document *)

Lemma all_in_singleton sub v : all_in sub [v] ↔ sub !! v = Some true.
Proof. unfold all_in. by rewrite Forall_singleton. Qed.

Lemma in_domain_lookup {W} sub (ss : list (wsimplex W)) s v :
  in_domain sub ss → s ∈ ss → v ∈ s.1 → is_Some (sub !! v).
Proof.
  unfold in_domain. rewrite Forall_forall. intros Hdom Hs Hv.
  apply lookup_lt_is_Some. specialize (Hdom s Hs).
  rewrite Forall_forall in Hdom. by apply Hdom.
Qed.

Lemma ids_numbered_from {W} (l : list (wsimplex W)) n :
  entry_id <$> imap (λ i s, (n + i, s.1, s.2)) l = seq n (length l).
Proof.
  revert n. induction l as [|s l IH]; intros n; simpl; [done|].
  unfold entry_id at 1. simpl. rewrite Nat.add_0_r. f_equal.
  rewrite <- IH. f_equal. apply imap_ext. intros i x _. simpl.
  do 2 f_equal. lia.
Qed.

Lemma ids_numbered {W} (l : list (wsimplex W)) :
  entry_id <$> numbered l = seq 0 (length l).
Proof. exact (ids_numbered_from l 0). Qed.

(** C1.  When [sub] is defined on every vertex of the input, the build
    returns, [L] holds exactly the input simplices all of whose vertices
    satisfy the predicate and [not_L] exactly the other ones; a simplex
    with the single vertex [v] is in [L] when [sub[v]] is [True] and in
    [not_L] when it is [False]. *)
Theorem L_iff_all_vertices_member {W} (sub : list bool)
    (simplices : list (wsimplex W)) :
  in_domain sub simplices →
  ∃ o, build sub simplices = Ok o ∧
    unnumbered <$> L o = filter (λ s, all_in sub s.1) simplices ∧
    not_L o = filter (λ s, ¬ all_in sub s.1) simplices ∧
    (∀ s, s ∈ unnumbered <$> L o ↔ s ∈ simplices ∧ all_in sub s.1) ∧
    (∀ s, s ∈ not_L o ↔ s ∈ simplices ∧ ¬ all_in sub s.1) ∧
    (∀ v w, ([v], w) ∈ simplices →
       (([v], w) ∈ unnumbered <$> L o ↔ sub !! v = Some true) ∧
       (([v], w) ∈ not_L o ↔ sub !! v = Some false)).
Proof.
  intros Hdom. exists (build_pair_spec sub simplices).
  split; [by apply build_total|]. simpl. rewrite unnumbered_numbered.
  unfold selected, rejected. split_and!; [done|done|..].
  - intros s. rewrite list_elem_of_filter. tauto.
  - intros s. rewrite list_elem_of_filter. tauto.
  - intros v w Hin. rewrite !list_elem_of_filter. simpl.
    rewrite all_in_singleton.
    destruct (in_domain_lookup sub simplices ([v], w) v Hdom Hin) as [b Hb];
      [simpl; left|].
    rewrite Hb. destruct b; (split; split; [try tauto..]).
    + intros [=].
    + by intros _.
Qed.

Lemma L_iff_all_vertices_member_witness :
  ∃ o, build demo_sub demo_simplices = Ok o ∧
    unnumbered <$> L o = filter (λ s, all_in demo_sub s.1) demo_simplices ∧
    not_L o = filter (λ s, ¬ all_in demo_sub s.1) demo_simplices ∧
    (∀ s, s ∈ unnumbered <$> L o ↔
          s ∈ demo_simplices ∧ all_in demo_sub s.1) ∧
    (∀ s, s ∈ not_L o ↔ s ∈ demo_simplices ∧ ¬ all_in demo_sub s.1) ∧
    (∀ v w, ([v], w) ∈ demo_simplices →
       (([v], w) ∈ unnumbered <$> L o ↔ demo_sub !! v = Some true) ∧
       (([v], w) ∈ not_L o ↔ demo_sub !! v = Some false)).
Proof.
  apply (L_iff_all_vertices_member demo_sub demo_simplices).
  unfold in_domain. repeat constructor.
Defined.

(** Faces of singletons and of edges, for checking the invariant on a
    concrete filtration. *)
Lemma proper_face_singleton f v : ¬ proper_face f [v].
Proof. unfold proper_face, vertex_set. simpl. set_solver. Qed.

Lemma proper_face_edge f a b :
  proper_face f [a; b] → f = {[a]} ∨ f = {[b]}.
Proof.
  unfold proper_face, vertex_set. simpl. intros [Hne Hsub].
  destruct (decide (a ∈ f)) as [Ha|Ha]; destruct (decide (b ∈ f)) as [Hb|Hb].
  - destruct Hsub as [_ []]. set_solver.
  - left. set_solver.
  - right. set_solver.
  - destruct Hne. set_solver.
Qed.

Lemma demo_faces_no_later : faces_no_later demo_simplices.*1.
Proof.
  intros i vs f Hi Hf.
  destruct i as [|[|[|[|[|i]]]]]; simpl in Hi; simplify_eq;
    [by apply proper_face_singleton in Hf..| |].
  - apply proper_face_edge in Hf as [->| ->].
    + exists 0, [0]. split_and!; [lia|done|]. unfold vertex_set. set_solver.
    + exists 1, [1]. split_and!; [lia|done|]. unfold vertex_set. set_solver.
  - apply proper_face_edge in Hf as [->| ->].
    + exists 0, [0]. split_and!; [lia|done|]. unfold vertex_set. set_solver.
    + exists 2, [2]. split_and!; [lia|done|]. unfold vertex_set. set_solver.
Defined.

(** C2.  When the input satisfies the closure invariant and [sub] is
    defined on its vertices, the build returns and every proper face of
    every simplex of [L] appears earlier in [L]. *)
Theorem L_closed_under_faces {W} (sub : list bool)
    (simplices : list (wsimplex W)) :
  faces_no_later simplices.*1 →
  in_domain sub simplices →
  ∃ o, build sub simplices = Ok o ∧ faces_earlier (entry_vertices <$> L o).
Proof.
  intros Hcl Hdom. exists (build_pair_spec sub simplices).
  split; [by apply build_total|]. simpl.
  rewrite vertices_numbered, fmap_fst_selected.
  by apply faces_earlier_filter, faces_no_later_earlier.
Qed.

Lemma L_closed_under_faces_witness :
  ∃ o, build demo_sub demo_simplices = Ok o ∧
    faces_earlier (entry_vertices <$> L o).
Proof.
  apply (L_closed_under_faces demo_sub demo_simplices).
  - exact demo_faces_no_later.
  - unfold in_domain. repeat constructor.
Defined.

(** C3.  When [sub] is defined on every vertex of the input, the build
    returns, [K] lists the simplices of [L] followed by those of [not_L],
    both [L] and [not_L] keep the order the input gives their simplices,
    and the first [len(L)] entries of [K] are the entries of [L], ids
    included. *)
Theorem K_is_L_then_not_L {W} (sub : list bool)
    (simplices : list (wsimplex W)) :
  in_domain sub simplices →
  ∃ o, build sub simplices = Ok o ∧
    unnumbered <$> K o = (unnumbered <$> L o) ++ not_L o ∧
    unnumbered <$> L o `sublist_of` simplices ∧
    not_L o `sublist_of` simplices ∧
    take (length (L o)) (K o) = L o.
Proof.
  intros Hdom. exists (build_pair_spec sub simplices).
  split; [by apply build_total|]. simpl. rewrite !unnumbered_numbered.
  unfold selected, rejected. split_and!; [done|apply sublist_filter..|].
  unfold numbered at 1. rewrite length_imap. apply numbered_take.
Qed.

Lemma K_is_L_then_not_L_witness :
  ∃ o, build demo_sub demo_simplices = Ok o ∧
    unnumbered <$> K o = (unnumbered <$> L o) ++ not_L o ∧
    unnumbered <$> L o `sublist_of` demo_simplices ∧
    not_L o `sublist_of` demo_simplices ∧
    take (length (L o)) (K o) = L o.
Proof.
  apply (K_is_L_then_not_L demo_sub demo_simplices).
  unfold in_domain. repeat constructor.
Defined.

(** C4.  When the input satisfies the closure invariant and [sub] is
    defined on its vertices, the build returns and every proper face of
    every simplex of [K] appears earlier in [K]. *)
Theorem K_closed_under_faces {W} (sub : list bool)
    (simplices : list (wsimplex W)) :
  faces_no_later simplices.*1 →
  in_domain sub simplices →
  ∃ o, build sub simplices = Ok o ∧ faces_earlier (entry_vertices <$> K o).
Proof.
  intros Hcl Hdom. exists (build_pair_spec sub simplices).
  split; [by apply build_total|]. simpl.
  rewrite vertices_numbered, fmap_app, fmap_fst_selected, fmap_fst_rejected.
  by apply faces_earlier_reorder, faces_no_later_earlier.
Qed.

Lemma K_closed_under_faces_witness :
  ∃ o, build demo_sub demo_simplices = Ok o ∧
    faces_earlier (entry_vertices <$> K o).
Proof.
  apply (K_closed_under_faces demo_sub demo_simplices).
  - exact demo_faces_no_later.
  - unfold in_domain. repeat constructor.
Defined.

(** C5.  When [sub] is defined on every vertex of the input, the build
    returns, the lengths of [L] and [not_L] add up to the length of the
    input, [L] followed by [not_L] is a rearrangement of the input (nothing
    lost, nothing repeated), and no simplex is in both lists. *)
Theorem L_not_L_partition {W} (sub : list bool)
    (simplices : list (wsimplex W)) :
  in_domain sub simplices →
  ∃ o, build sub simplices = Ok o ∧
    length (L o) + length (not_L o) = length simplices ∧
    (unnumbered <$> L o) ++ not_L o ≡ₚ simplices ∧
    (∀ s, s ∈ unnumbered <$> L o → s ∉ not_L o) ∧
    (NoDup simplices → NoDup ((unnumbered <$> L o) ++ not_L o)).
Proof.
  intros Hdom. exists (build_pair_spec sub simplices).
  split; [by apply build_total|]. simpl. rewrite unnumbered_numbered.
  unfold selected, rejected.
  pose proof (filter_app_complement (λ s : wsimplex W, all_in sub s.1)
                simplices) as Hperm.
  split_and!; [|done| |].
  - unfold numbered. rewrite length_imap, <- length_app. by rewrite Hperm.
  - intros s. rewrite !list_elem_of_filter. tauto.
  - intros Hnd. by rewrite Hperm.
Qed.

Lemma L_not_L_partition_witness :
  ∃ o, build demo_sub demo_simplices = Ok o ∧
    length (L o) + length (not_L o) = length demo_simplices ∧
    (unnumbered <$> L o) ++ not_L o ≡ₚ demo_simplices ∧
    (∀ s, s ∈ unnumbered <$> L o → s ∉ not_L o) ∧
    (NoDup demo_simplices → NoDup ((unnumbered <$> L o) ++ not_L o)).
Proof.
  apply (L_not_L_partition demo_sub demo_simplices).
  unfold in_domain. repeat constructor.
Defined.

(** C6.  When [sub] is defined on every vertex of the input, the build
    returns, the ids of [L] are [0 .. len(L)-1] and those of [K] are
    [0 .. len(K)-1] in this order, so the entry at position [i] carries the
    id [i], and the vertex list and the weight of every entry are those of
    one input simplex. *)
Theorem ids_by_position {W} (sub : list bool)
    (simplices : list (wsimplex W)) :
  in_domain sub simplices →
  ∃ o, build sub simplices = Ok o ∧
    entry_id <$> L o = seq 0 (length (L o)) ∧
    entry_id <$> K o = seq 0 (length (K o)) ∧
    length (K o) = length simplices ∧
    (∀ i e, L o !! i = Some e →
       entry_id e = i ∧ (entry_vertices e, entry_weight e) ∈ simplices) ∧
    (∀ i e, K o !! i = Some e →
       entry_id e = i ∧ (entry_vertices e, entry_weight e) ∈ simplices).
Proof.
  intros Hdom. exists (build_pair_spec sub simplices).
  split; [by apply build_total|]. simpl.
  pose proof (filter_app_complement (λ s : wsimplex W, all_in sub s.1)
                simplices) as Hperm.
  assert (∀ l i e, l ⊆ simplices → numbered l !! i = Some e →
            entry_id e = i ∧ (entry_vertices e, entry_weight e) ∈ simplices)
    as Hentry.
  { intros l i e Hl (s & Hs & ->)%numbered_lookup. split; [done|].
    apply Hl. destruct s. by eapply list_elem_of_lookup_2. }
  split_and!.
  - rewrite ids_numbered. unfold numbered. by rewrite length_imap.
  - rewrite ids_numbered. unfold numbered. by rewrite length_imap.
  - unfold numbered. rewrite length_imap. by rewrite Hperm.
  - intros i e. apply Hentry. apply list_subseteq_filter.
  - intros i e. apply Hentry. intros s. unfold selected, rejected.
    rewrite elem_of_app, !list_elem_of_filter. tauto.
Qed.

Lemma ids_by_position_witness :
  ∃ o, build demo_sub demo_simplices = Ok o ∧
    entry_id <$> L o = seq 0 (length (L o)) ∧
    entry_id <$> K o = seq 0 (length (K o)) ∧
    length (K o) = length demo_simplices ∧
    (∀ i e, L o !! i = Some e →
       entry_id e = i ∧
       (entry_vertices e, entry_weight e) ∈ demo_simplices) ∧
    (∀ i e, K o !! i = Some e →
       entry_id e = i ∧
       (entry_vertices e, entry_weight e) ∈ demo_simplices).
Proof.
  apply (ids_by_position demo_sub demo_simplices).
  unfold in_domain. repeat constructor.
Defined.

(** C8.  The empty input gives empty [L] and [K] without an exception.
    When every vertex of the input satisfies the predicate, [L] is the
    input in its order and [not_L] is empty.  When [sub] maps every vertex
    of the input to [False] (each simplex having at least one vertex), [L]
    is empty and [K] is the input in its order. *)
Theorem boundary_cases {W} (sub : list bool) (simplices : list (wsimplex W)) :
  build sub ([] : list (wsimplex W)) = Ok (Built [] [] []) ∧
  (Forall (λ s, all_in sub s.1) simplices →
     ∃ o, build sub simplices = Ok o ∧
       unnumbered <$> L o = simplices ∧ not_L o = []) ∧
  (Forall (λ s, s.1 ≠ [] ∧ Forall (λ v, sub !! v = Some false) s.1)
     simplices →
     ∃ o, build sub simplices = Ok o ∧
       L o = [] ∧ not_L o = simplices ∧ unnumbered <$> K o = simplices).
Proof.
  split_and!; [done| |].
  - intros Hall.
    assert (in_domain sub simplices) as Hdom.
    { unfold in_domain. eapply Forall_impl; [done|]. intros s Hs. simpl in *.
      eapply Forall_impl; [done|]. intros v Hv. simpl in *.
      by eapply lookup_lt_Some. }
    assert (selected sub simplices = simplices) as Hsel.
    { unfold selected. clear Hdom.
      induction Hall as [|s ss Hs _ IH]; [done|].
      rewrite filter_cons_True by done. by f_equal. }
    assert (rejected sub simplices = []) as Hrej.
    { unfold rejected. clear Hdom Hsel.
      induction Hall as [|s ss Hs _ IH]; [done|].
      rewrite filter_cons_False by tauto. done. }
    exists (build_pair_spec sub simplices).
    split; [by apply build_total|]. simpl.
    by rewrite unnumbered_numbered, Hsel, Hrej.
  - intros Hnone.
    assert (in_domain sub simplices) as Hdom.
    { unfold in_domain. eapply Forall_impl; [done|]. intros s [_ Hs].
      eapply Forall_impl; [done|]. intros v Hv. simpl in *.
      by eapply lookup_lt_Some. }
    assert (Forall (λ s : wsimplex W, ¬ all_in sub s.1) simplices) as Hout.
    { eapply Forall_impl; [exact Hnone|].
      intros [[|v vs] w] [Hne Hs]; [done|].
      simpl in *. unfold all_in. rewrite Forall_cons. intros [Hm _].
      apply Forall_cons in Hs as [Hv _]. unfold member in Hm. congruence. }
    assert (selected sub simplices = []) as Hsel.
    { unfold selected. clear Hdom Hnone.
      induction Hout as [|s ss Hs _ IH]; [done|].
      rewrite filter_cons_False by done. done. }
    assert (rejected sub simplices = simplices) as Hrej.
    { unfold rejected. clear Hdom Hnone Hsel.
      induction Hout as [|s ss Hs _ IH]; [done|].
      rewrite filter_cons_True by done. by f_equal. }
    exists (build_pair_spec sub simplices).
    split; [by apply build_total|]. simpl.
    by rewrite unnumbered_numbered, Hsel, Hrej.
Qed.

Lemma boundary_cases_witness :
  (∃ o, build [true; true; true] demo_simplices = Ok o ∧
     unnumbered <$> L o = demo_simplices ∧ not_L o = []) ∧
  (∃ o, build [false; false; false] demo_simplices = Ok o ∧
     L o = [] ∧ not_L o = demo_simplices ∧
     unnumbered <$> K o = demo_simplices).
Proof.
  split.
  - apply (boundary_cases [true; true; true] demo_simplices).
    repeat constructor.
  - apply (boundary_cases [false; false; false] demo_simplices).
    repeat (constructor; try done).
Defined.

(** C10.  The branch for single-vertex simplices does what the general
    branch would do on them, so the loop as written and the loop that takes
    the general branch for every simplex compute the same lists and raise
    on the same inputs. *)
Theorem single_vertex_branch_redundant {W} (sub : list bool)
    (simplices : list (wsimplex W)) :
  (∀ (st : lists W) v w,
     single_vertex_branch sub st ([v], w) = general_branch sub st ([v], w)) ∧
  (∀ (st : lists W) s, classify sub st s = general_branch sub st s) ∧
  partition sub simplices = partition_general sub simplices.
Proof.
  split_and!.
  - apply single_vertex_general.
  - apply classify_general.
  - unfold partition, partition_general. generalize (([], []) : lists W).
    induction simplices as [|s ss IH]; intros st; simpl; [done|].
    rewrite classify_general. unfold mbind, result_bind.
    by destruct (general_branch sub st s).
Qed.

(** ** Exceptions *)

Lemma only_vertex_first sub us v :
  vertex_set us = {[v]} → length sub ≤ v → reads_invalid sub us.
Proof.
  unfold vertex_set. intros Hset Hv. destruct us as [|u us].
  - simpl in Hset. set_solver.
  - assert (u = v) as -> by (simpl in Hset; set_solver).
    exists [], v, us. split_and!; [done|constructor|done].
Qed.

Lemma closed_invalid_read {W} sub (ss : list (wsimplex W)) :
  faces_no_later ss.*1 → ¬ in_domain sub ss →
  Exists (λ s, reads_invalid sub s.1) ss.
Proof.
  intros Hcl Hdom. unfold in_domain in Hdom.
  apply not_Forall_Exists in Hdom; [|apply _].
  apply Exists_exists in Hdom as (s & Hs & Hbad). simpl in Hbad.
  apply not_Forall_Exists in Hbad; [|apply _].
  apply Exists_exists in Hbad as (v & Hv & Hlen). simpl in Hlen.
  apply Nat.nlt_ge in Hlen.
  destruct (decide (vertex_set s.1 = {[v]})) as [Honly|Hmore].
  - apply Exists_exists. exists s. split; [done|].
    by apply (only_vertex_first sub s.1 v).
  - apply list_elem_of_lookup_1 in Hs as [i Hi].
    destruct (Hcl i s.1 {[v]}) as (j & us & _ & Hj & Hus).
    + by rewrite list_lookup_fmap, Hi.
    + unfold proper_face, vertex_set in *. split; [set_solver|].
      assert (v ∈ (list_to_set s.1 : gset nat))
        by by apply elem_of_list_to_set.
      set_solver.
    + apply list_lookup_fmap_Some in Hj as (s' & -> & Hs').
      apply Exists_exists. exists s'. split.
      * by eapply list_elem_of_lookup_2.
      * by apply (only_vertex_first sub s'.1 v).
Qed.

(** C7 as stated does not hold: with [sub = [False]] the simplex [[0, 7]]
    references the vertex 7, which [sub] does not cover, and the build
    still returns, because the inner loop leaves at vertex 0. *)
Lemma invalid_vertex_unread :
  let sub := [false] in
  let simplices : list (wsimplex Q) := [([0; 7], 0%Q)] in
  (∃ s v, s ∈ simplices ∧ v ∈ s.1 ∧ sub !! v = None) ∧
  build sub simplices = Ok (Built [] simplices [(0, [0; 7], 0%Q)]).
Proof.
  split; [|reflexivity].
  exists ([0; 7], 0%Q), 7. split_and!; [by left|by right; left|done].
Qed.

(** C7, amended.  The simplices come paired with their weights, so there
    is no length to compare and [IndexError] is the only failure.  The
    build raises it, and returns nothing, exactly when in some simplex a
    vertex outside [sub] is preceded by selected vertices only; it returns
    when [sub] covers every vertex; and on an input that satisfies the
    closure invariant it raises whenever some vertex is outside [sub]. *)
Theorem build_aborts_iff {W} (sub : list bool)
    (simplices : list (wsimplex W)) :
  (∀ e, build sub simplices = Raise e ↔
        Exists (λ s, reads_invalid sub s.1) simplices) ∧
  (in_domain sub simplices → ∃ o, build sub simplices = Ok o) ∧
  (faces_no_later simplices.*1 → ¬ in_domain sub simplices →
     build sub simplices = Raise IndexError).
Proof.
  split_and!.
  - intros e. apply build_Raise.
  - intros Hdom. eexists. by apply build_total.
  - intros Hcl Hdom. by apply build_Raise, closed_invalid_read.
Qed.

Lemma build_aborts_iff_witness :
  build [true; true] demo_simplices = Raise IndexError ∧
  ∃ o, build demo_sub demo_simplices = Ok o.
Proof.
  split.
  - apply (build_aborts_iff [true; true] demo_simplices).
    + exact demo_faces_no_later.
    + unfold in_domain. intros Hdom.
      do 2 apply Forall_cons in Hdom as [_ Hdom].
      apply Forall_cons in Hdom as [Hbad _].
      apply Forall_cons in Hbad as [Hlt _]. simpl in Hlt. lia.
  - apply (build_aborts_iff demo_sub demo_simplices).
    unfold in_domain. repeat constructor.
Defined.

(** ** Determinism *)

(** C9.  Two runs of the fragment on the same [sub] and [simplices] end in
    the same configuration: the same [L], [not_L] and [K] with the same
    ids, or the same exception. *)
Theorem build_deterministic {W} (sub : list bool)
    (simplices : list (wsimplex W)) (c1 c2 : config W) :
  runs sub simplices c1 → runs sub simplices c2 → c1 = c2.
Proof. intros [Hrun1 Hf1] [Hrun2 Hf2]. by eapply rtc_final_unique. Qed.

Lemma build_deterministic_witness :
  Finished (Built
    [(0, [0], 0%Q); (1, [1], 0%Q); (2, [0; 1], (1 # 10)%Q)]
    [([2], 0%Q); ([0; 2], (2 # 10)%Q)]
    [(0, [0], 0%Q); (1, [1], 0%Q); (2, [0; 1], (1 # 10)%Q);
     (3, [2], 0%Q); (4, [0; 2], (2 # 10)%Q)])
  = outcome (build demo_sub demo_simplices).
Proof.
  apply (build_deterministic demo_sub demo_simplices).
  - split; [|exact I]. unfold demo_simplices.
    eapply rtc_l; [by eapply step_single_in|].
    eapply rtc_l; [by eapply step_single_in|].
    eapply rtc_l; [by eapply step_single_out|].
    eapply rtc_l; [by eapply step_enter|].
    eapply rtc_l; [by eapply step_scan_next|].
    eapply rtc_l; [by eapply step_scan_next|].
    eapply rtc_l; [by eapply step_scan_end|].
    eapply rtc_l; [by eapply step_enter|].
    eapply rtc_l; [by eapply step_scan_next|].
    eapply rtc_l; [by eapply step_scan_break|].
    apply rtc_once.
    match goal with
    | |- step _ (AtLoop [] ?st) _ => exact (step_finish demo_sub st)
    end.
  - apply build_runs.
Defined.

(** * Further properties of the script *)

Example sorted_demo : sorted [3; 1; 2] = [1; 2; 3].
Proof. reflexivity. Qed.

Example sort_vertices_demo :
  sort_vertices [([2; 0], 0%Q); ([1], 0%Q)] = Ok [([0; 2], 0%Q); ([1], 0%Q)].
Proof. reflexivity. Qed.

Example make_sub_short : make_sub [0%Q; (19 # 2)%Q] = Raise IndexError.
Proof. reflexivity. Qed.

(** ** The builder on arbitrary input *)

Section Returns.
Context {W : Type}.
Implicit Types (s t : wsimplex W) (ss : list (wsimplex W)) (o : built W).

Lemma build_Ok_unread sub ss o :
  build sub ss = Ok o → Forall (λ s, ¬ reads_invalid sub s.1) ss.
Proof.
  intros Ho. apply Forall_forall. intros s Hs Hbad.
  assert (build sub ss = Raise IndexError) as Hraise.
  { apply build_Raise, Exists_exists. eauto. }
  congruence.
Qed.

Lemma build_unread_Ok sub ss :
  Forall (λ s, ¬ reads_invalid sub s.1) ss →
  build sub ss = Ok (build_pair_spec sub ss).
Proof.
  intros Hall. destruct (build sub ss) as [o|e] eqn:Ho.
  - by rewrite (build_Ok _ _ _ Ho).
  - apply build_Raise, Exists_exists in Ho as (s & Hs & Hbad).
    rewrite Forall_forall in Hall. by destruct (Hall s Hs).
Qed.

Lemma all_in_Permutation sub vs vs' : vs ≡ₚ vs' → all_in sub vs ↔ all_in sub vs'.
Proof. unfold all_in. by intros ->. Qed.

Lemma filter_twice {A} (P : A → Prop) `{!∀ x, Decision (P x)} (l : list A) :
  filter P (filter P l) = filter P l.
Proof.
  induction l as [|x l IH]; [done|]. rewrite filter_cons.
  destruct (decide (P x)); [|done]. by rewrite filter_cons_True, IH.
Qed.

Lemma filter_none {A} (P : A → Prop) `{!∀ x, Decision (P x)} (l : list A) :
  Forall (λ x, ¬ P x) l → filter P l = [].
Proof.
  induction 1 as [|x l Hx _ IH]; [done|]. by rewrite filter_cons_False.
Qed.

Lemma filter_all {A} (P : A → Prop) `{!∀ x, Decision (P x)} (l : list A) :
  Forall P l → filter P l = l.
Proof.
  induction 1 as [|x l Hx _ IH]; [done|].
  rewrite filter_cons_True by done. by f_equal.
Qed.

End Returns.

(** X1.  Inside the domain of [sub] the inner loop gives the same answer
    for any two orders of the same vertices. *)
Theorem scan_order_irrelevant_in_domain (sub : list bool) (vs vs' : list nat) :
  vs ≡ₚ vs' → Forall (λ v, v < length sub) vs → scan sub vs = scan sub vs'.
Proof.
  intros Hperm Hdom. rewrite !scan_total; [|by rewrite <- Hperm|done].
  f_equal. apply bool_decide_ext. by apply all_in_Permutation.
Qed.

Lemma scan_order_irrelevant_in_domain_witness :
  scan demo_sub [0; 2] = scan demo_sub [2; 0].
Proof.
  apply scan_order_irrelevant_in_domain.
  - apply perm_swap.
  - repeat constructor.
Defined.

(** Outside the domain the order decides between an answer and an
    exception. *)
Example scan_order_matters_outside :
  scan [false] [0; 7] = Ok false ∧ scan [false] [7; 0] = Raise IndexError.
Proof. by split. Qed.

(** X2.  Whenever the build returns, also when unread vertices lie outside
    [sub], no inner loop has read such a vertex, [L] is the numbered list
    of the simplices whose vertices all satisfy the predicate, [not_L] is
    the list of the others and [K] is the numbered concatenation. *)
Theorem build_returns_partition {W} (sub : list bool)
    (simplices : list (wsimplex W)) (o : built W) :
  build sub simplices = Ok o →
  Forall (λ s, ¬ reads_invalid sub s.1) simplices ∧
  L o = numbered (filter (λ s, all_in sub s.1) simplices) ∧
  not_L o = filter (λ s, ¬ all_in sub s.1) simplices ∧
  K o = numbered (filter (λ s, all_in sub s.1) simplices
                  ++ filter (λ s, ¬ all_in sub s.1) simplices).
Proof.
  intros Ho. split; [by eapply build_Ok_unread|].
  by rewrite (build_Ok _ _ _ Ho).
Qed.

Lemma build_returns_partition_witness :
  Forall (λ s : wsimplex Q, ¬ reads_invalid [false] s.1) [([0; 7], 0%Q)] ∧
  L (Built [] [([0; 7], 0%Q)] [(0, [0; 7], 0%Q)])
  = numbered (filter (λ s, all_in [false] s.1) [([0; 7], 0%Q)]) ∧
  not_L (Built [] [([0; 7], 0%Q)] [(0, [0; 7], 0%Q)])
  = filter (λ s, ¬ all_in [false] s.1) [([0; 7], 0%Q)] ∧
  K (Built [] [([0; 7], 0%Q)] [(0, [0; 7], 0%Q)])
  = numbered (filter (λ s, all_in [false] s.1) [([0; 7], 0%Q)]
              ++ filter (λ s, ¬ all_in [false] s.1) [([0; 7], 0%Q)]).
Proof.
  apply (build_returns_partition [false] [([0; 7], 0%Q)]). reflexivity.
Defined.

(** X3.  [L] is the sub-complex induced by the selected vertices: with a
    simplex it holds every input simplex on a subset of its vertices, and
    [not_L] holds with a simplex every input simplex on a superset. *)
Theorem L_induced_subcomplex {W} (sub : list bool)
    (simplices : list (wsimplex W)) (o : built W) :
  build sub simplices = Ok o →
  (∀ s t, s ∈ unnumbered <$> L o → t ∈ simplices →
     vertex_set t.1 ⊆ vertex_set s.1 → t ∈ unnumbered <$> L o) ∧
  (∀ s t, s ∈ not_L o → t ∈ simplices →
     vertex_set s.1 ⊆ vertex_set t.1 → t ∈ not_L o).
Proof.
  intros ->%build_Ok. simpl. rewrite unnumbered_numbered.
  unfold selected, rejected. split; intros s t Hs Ht Hsub;
    apply list_elem_of_filter in Hs as [Hs _];
    apply list_elem_of_filter; (split; [|done]).
  - by apply (all_in_face sub s.1).
  - intros Hin. apply Hs. by apply (all_in_face sub t.1).
Qed.

Lemma L_induced_subcomplex_witness :
  (∀ s t, s ∈ unnumbered <$> L demo_built → t ∈ demo_simplices →
     vertex_set t.1 ⊆ vertex_set s.1 → t ∈ unnumbered <$> L demo_built) ∧
  (∀ s t, s ∈ not_L demo_built → t ∈ demo_simplices →
     vertex_set s.1 ⊆ vertex_set t.1 → t ∈ not_L demo_built).
Proof.
  apply (L_induced_subcomplex demo_sub demo_simplices demo_built).
  reflexivity.
Defined.

(** ** What the result depends on *)

Lemma scan_agree sub sub' vs :
  Forall (λ v, sub !! v = sub' !! v) vs → scan sub vs = scan sub' vs.
Proof.
  induction 1 as [|v vs Hv _ IH]; simpl; [done|].
  unfold getitem, mbind, result_bind. rewrite <- Hv.
  destruct (sub !! v) as [[]|]; by simpl.
Qed.

Lemma for_each_general_agree {W} sub sub' (ss : list (wsimplex W)) st :
  Forall (λ s, Forall (λ v, sub !! v = sub' !! v) s.1) ss →
  for_each (classify sub) ss st = for_each (classify sub') ss st.
Proof.
  intros Hagree. revert st.
  induction Hagree as [|s ss Hs _ IH]; intros st; simpl; [done|].
  rewrite !classify_general. unfold general_branch.
  rewrite (scan_agree sub sub' s.1 Hs). unfold mbind, result_bind.
  destruct (scan sub' s.1) as [b|]; [|done]. by destruct (is_True b).
Qed.

(** X4.  The build reads [sub] at the vertices of the input only: two
    lists that agree there, entries and missing entries alike, give the
    same result or the same exception. *)
Theorem build_depends_on_read_vertices {W} (sub sub' : list bool)
    (simplices : list (wsimplex W)) :
  Forall (λ s, Forall (λ v, sub !! v = sub' !! v) s.1) simplices →
  build sub simplices = build sub' simplices.
Proof.
  intros Hagree. unfold build, partition.
  by rewrite (for_each_general_agree sub sub').
Qed.

Lemma build_depends_on_read_vertices_witness :
  build demo_sub demo_simplices
  = build [true; true; false; true; false] demo_simplices.
Proof.
  apply build_depends_on_read_vertices. repeat constructor.
Defined.

(** ** Growing the input *)

Lemma numbered_prefix {W} (l1 l2 : list (wsimplex W)) :
  numbered l1 `prefix_of` numbered (l1 ++ l2).
Proof. unfold numbered. rewrite imap_app. by eexists. Qed.

(** X5.  When the build returns on an input it returns on every initial
    segment of it and on the rest, and the entries of [L], ids included,
    and of [not_L] for the initial segment are initial segments of those
    for the whole input. *)
Theorem build_prefix_stable {W} (sub : list bool)
    (ss1 ss2 : list (wsimplex W)) (o : built W) :
  build sub (ss1 ++ ss2) = Ok o →
  ∃ o1 o2, build sub ss1 = Ok o1 ∧ build sub ss2 = Ok o2 ∧
    L o1 `prefix_of` L o ∧
    not_L o1 `prefix_of` not_L o ∧
    unnumbered <$> L o = (unnumbered <$> L o1) ++ (unnumbered <$> L o2) ∧
    not_L o = not_L o1 ++ not_L o2.
Proof.
  intros Ho. pose proof (build_Ok_unread _ _ _ Ho) as [H1 H2]%Forall_app.
  apply build_Ok in Ho as ->.
  exists (build_pair_spec sub ss1), (build_pair_spec sub ss2).
  split_and!; [by apply build_unread_Ok..| | | |]; simpl;
    rewrite ?unnumbered_numbered; unfold selected, rejected;
    rewrite !filter_app.
  - apply numbered_prefix.
  - by eexists.
  - done.
  - done.
Qed.

Lemma build_prefix_stable_witness :
  ∃ o1 o2,
    build demo_sub (take 2 demo_simplices) = Ok o1 ∧
    build demo_sub (drop 2 demo_simplices) = Ok o2 ∧
    L o1 `prefix_of` L demo_built ∧
    not_L o1 `prefix_of` not_L demo_built ∧
    unnumbered <$> L demo_built
    = (unnumbered <$> L o1) ++ (unnumbered <$> L o2) ∧
    not_L demo_built = not_L o1 ++ not_L o2.
Proof.
  apply (build_prefix_stable demo_sub (take 2 demo_simplices)
           (drop 2 demo_simplices) demo_built).
  reflexivity.
Defined.

(** ** Where an input simplex ends up *)

Lemma filter_lookup_rank {A} (P : A → Prop) `{!∀ x, Decision (P x)}
    (l : list A) i x :
  l !! i = Some x → P x →
  filter P l !! length (filter P (take i l)) = Some x.
Proof.
  intros Hi Hx.
  assert (filter P l
          = filter P (take i l) ++ x :: filter P (drop (S i) l)) as ->.
  { rewrite <- (filter_cons_True P x) by done.
    by rewrite <- filter_app, take_drop_middle. }
  by apply list_lookup_middle.
Qed.

(** X6.  The simplex at position [i] of the input gets, in [L] and in [K],
    the number of selected simplices before it as position and id when all
    its vertices satisfy the predicate; otherwise it gets, in [K], the
    length of [L] plus the number of rejected simplices before it. *)
Theorem position_in_L_and_K {W} (sub : list bool)
    (simplices : list (wsimplex W)) (o : built W) (i : nat) (s : wsimplex W) :
  build sub simplices = Ok o →
  simplices !! i = Some s →
  (all_in sub s.1 →
     let r := length (filter (λ t, all_in sub t.1) (take i simplices)) in
     L o !! r = Some (r, s.1, s.2) ∧ K o !! r = Some (r, s.1, s.2)) ∧
  (¬ all_in sub s.1 →
     let r := length (L o)
              + length (filter (λ t, ¬ all_in sub t.1) (take i simplices)) in
     K o !! r = Some (r, s.1, s.2)).
Proof.
  intros ->%build_Ok Hi. unfold build_pair_spec, selected, rejected.
  cbn [L K]. split; intros Hs; cbv zeta.
  - pose proof (filter_lookup_rank (λ t, all_in sub t.1) _ _ _ Hi Hs) as Hr.
    split; apply numbered_lookup; exists s; (split; [|done]); [done|].
    by apply lookup_app_l_Some.
  - pose proof (filter_lookup_rank (λ t, ¬ all_in sub t.1) _ _ _ Hi Hs) as Hr.
    apply numbered_lookup. exists s. split; [|done].
    unfold numbered. rewrite length_imap. unfold wsimplex in *.
    rewrite lookup_app_r by lia. rewrite <- Hr. f_equal. lia.
Qed.

Lemma position_in_L_and_K_witness :
  (all_in demo_sub [0; 1] →
     let r := length (filter (λ t : wsimplex Q, all_in demo_sub t.1)
                        (take 3 demo_simplices)) in
     L demo_built !! r = Some (r, [0; 1], (1 # 10)%Q) ∧
     K demo_built !! r = Some (r, [0; 1], (1 # 10)%Q)) ∧
  (¬ all_in demo_sub [0; 1] →
     let r := length (L demo_built)
              + length (filter (λ t : wsimplex Q, ¬ all_in demo_sub t.1)
                          (take 3 demo_simplices)) in
     K demo_built !! r = Some (r, [0; 1], (1 # 10)%Q)).
Proof.
  apply (position_in_L_and_K demo_sub demo_simplices demo_built 3
           ([0; 1], (1 # 10)%Q)); reflexivity.
Defined.

Lemma length_numbered {W} (l : list (wsimplex W)) :
  length (numbered l) = length l.
Proof. apply length_imap. Qed.

(** X7.  In [K] the entries from position [len(L)] on are those of
    [not_L] in their order, numbered from [len(L)]. *)
Theorem K_suffix_is_not_L {W} (sub : list bool)
    (simplices : list (wsimplex W)) (o : built W) :
  build sub simplices = Ok o →
  drop (length (L o)) (unnumbered <$> K o) = not_L o ∧
  (∀ j s, not_L o !! j = Some s →
     K o !! (length (L o) + j) = Some (length (L o) + j, s.1, s.2)).
Proof.
  intros ->%build_Ok. simpl. rewrite unnumbered_numbered, !length_numbered.
  split.
  - by rewrite drop_app_length.
  - intros j s Hj. apply numbered_lookup. exists s. split; [|done].
    unfold wsimplex in *. rewrite lookup_app_r by lia.
    rewrite <- Hj. f_equal. lia.
Qed.

Lemma K_suffix_is_not_L_witness :
  drop (length (L demo_built)) (unnumbered <$> K demo_built)
  = not_L demo_built ∧
  (∀ j s, not_L demo_built !! j = Some s →
     K demo_built !! (length (L demo_built) + j)
     = Some (length (L demo_built) + j, s.1, s.2)).
Proof.
  apply (K_suffix_is_not_L demo_sub demo_simplices demo_built). reflexivity.
Defined.

(** ** Building again *)

Section Refilter.
Context {W : Type}.
Implicit Types (ss : list (wsimplex W)).

Lemma selected_app sub ss1 ss2 :
  selected sub (ss1 ++ ss2) = selected sub ss1 ++ selected sub ss2.
Proof. apply filter_app. Qed.

Lemma rejected_app sub ss1 ss2 :
  rejected sub (ss1 ++ ss2) = rejected sub ss1 ++ rejected sub ss2.
Proof. apply filter_app. Qed.

Lemma selected_selected sub ss : selected sub (selected sub ss) = selected sub ss.
Proof. apply filter_twice. Qed.

Lemma rejected_rejected sub ss : rejected sub (rejected sub ss) = rejected sub ss.
Proof. apply filter_twice. Qed.

Lemma selected_rejected sub ss : selected sub (rejected sub ss) = [].
Proof.
  apply filter_none, Forall_forall.
  by intros s [Hs _]%list_elem_of_filter.
Qed.

Lemma rejected_selected sub ss : rejected sub (selected sub ss) = [].
Proof.
  apply filter_none, Forall_forall.
  intros s [Hs _]%list_elem_of_filter. tauto.
Qed.

End Refilter.

(** X8.  Feeding the simplices of [K] back gives the same [L], [not_L] and
    [K]; feeding the simplices of [L] back gives [L] again, as [L] and as
    [K], and an empty [not_L]. *)
Theorem rebuild_fixpoint {W} (sub : list bool)
    (simplices : list (wsimplex W)) (o : built W) :
  build sub simplices = Ok o →
  build sub (unnumbered <$> K o) = Ok o ∧
  build sub (unnumbered <$> L o) = Ok (Built (L o) [] (L o)).
Proof.
  intros Ho. pose proof (build_Ok_unread _ _ _ Ho) as Hunread.
  rewrite Forall_forall in Hunread.
  apply build_Ok in Ho as ->. simpl. rewrite !unnumbered_numbered. split.
  - rewrite build_unread_Ok.
    + unfold build_pair_spec.
      by rewrite selected_app, rejected_app, selected_selected,
        selected_rejected, rejected_selected, rejected_rejected, app_nil_r.
    + apply Forall_app. split; apply Forall_forall;
        intros s [_ Hs]%list_elem_of_filter; by apply Hunread.
  - rewrite build_unread_Ok.
    + unfold build_pair_spec.
      by rewrite selected_selected, rejected_selected, app_nil_r.
    + apply Forall_forall. intros s [_ Hs]%list_elem_of_filter.
      by apply Hunread.
Qed.

Lemma rebuild_fixpoint_witness :
  build demo_sub (unnumbered <$> K demo_built) = Ok demo_built ∧
  build demo_sub (unnumbered <$> L demo_built)
  = Ok (Built (L demo_built) [] (L demo_built)).
Proof.
  apply (rebuild_fixpoint demo_sub demo_simplices demo_built). reflexivity.
Defined.

(** ** Sorting the vertices of every simplex *)

Lemma sorted_Permutation vs : sorted vs ≡ₚ vs.
Proof. apply merge_sort_Permutation. Qed.

Lemma sorted_StronglySorted vs : StronglySorted (≤) (sorted vs).
Proof. apply StronglySorted_merge_sort; apply _. Qed.

Lemma sorted_unique vs us : us ≡ₚ vs → StronglySorted (≤) us → us = sorted vs.
Proof.
  intros Hperm Hsorted. apply (StronglySorted_unique (≤)); [done| |].
  - apply sorted_StronglySorted.
  - by rewrite sorted_Permutation.
Qed.

Lemma sorted_vertex_set vs : vertex_set (sorted vs) = vertex_set vs.
Proof.
  unfold vertex_set. apply set_eq. intros v.
  by rewrite !elem_of_list_to_set, sorted_Permutation.
Qed.

Section SortVertices.
Context {W : Type}.
Implicit Types (s : wsimplex W) (ss pre mid post : list (wsimplex W)).

Lemma sort_at_middle pre s post :
  sort_at (pre ++ s :: post) (length pre) = Ok (pre ++ sort_one s :: post).
Proof.
  unfold sort_at, getitem, mbind, result_bind.
  rewrite list_lookup_middle by done. f_equal.
  replace (length pre) with (length pre + 0) by lia.
  by rewrite insert_app_r.
Qed.

Lemma sort_loop pre mid post :
  for_each sort_at (seq (length pre) (length mid)) (pre ++ mid ++ post)
  = Ok (pre ++ (sort_one <$> mid) ++ post).
Proof.
  revert pre. induction mid as [|s mid IH]; intros pre; simpl; [done|].
  rewrite sort_at_middle. unfold mbind, result_bind.
  specialize (IH (pre ++ [sort_one s])).
  rewrite length_app, Nat.add_1_r, <- !app_assoc in IH. apply IH.
Qed.

Lemma sort_vertices_fmap ss : sort_vertices ss = Ok (sort_one <$> ss).
Proof.
  pose proof (sort_loop [] ss []) as Hloop. simpl in Hloop.
  rewrite !app_nil_r in Hloop. apply Hloop.
Qed.

End SortVertices.

(** X9.  Lines 22-23 never raise; they keep the number of simplices and,
    position by position, the weight, and they replace every vertex list
    by its ascending rearrangement. *)
Theorem sort_vertices_spec {W} (simplices : list (wsimplex W)) :
  ∃ simplices', sort_vertices simplices = Ok simplices' ∧
    Forall2 (λ s s', s'.2 = s.2 ∧ s'.1 ≡ₚ s.1 ∧ StronglySorted (≤) s'.1)
      simplices simplices'.
Proof.
  exists (sort_one <$> simplices). split; [apply sort_vertices_fmap|].
  apply Forall2_fmap_r, Forall_Forall2_diag, Forall_forall.
  intros s _. simpl. split_and!; [done|..].
  - apply sorted_Permutation.
  - apply sorted_StronglySorted.
Qed.

Lemma sort_one_canonical {W} (s t : wsimplex W) :
  s.1 ≡ₚ t.1 → s.2 = t.2 → sort_one s = sort_one t.
Proof.
  intros Hperm Hw. unfold sort_one. f_equal; [|done].
  apply sorted_unique; [|apply sorted_StronglySorted].
  by rewrite sorted_Permutation.
Qed.

(** X10.  Two inputs that hold, position by position, the same vertices in
    some order with the same weight leave lines 22-23 as the same list; in
    particular running the lines on their own result changes nothing. *)
Theorem sort_vertices_canonical {W} (ss tt : list (wsimplex W)) :
  Forall2 (λ s t, s.1 ≡ₚ t.1 ∧ s.2 = t.2) ss tt →
  sort_vertices ss = sort_vertices tt ∧
  ∀ ss', sort_vertices ss = Ok ss' → sort_vertices ss' = Ok ss'.
Proof.
  intros Hsame. rewrite !sort_vertices_fmap. split.
  - f_equal. induction Hsame as [|s t ss tt [Hperm Hw] _ IH]; [done|].
    rewrite !fmap_cons. f_equal; [by apply sort_one_canonical|done].
  - intros ss' [= <-]. rewrite sort_vertices_fmap. f_equal.
    rewrite <- list_fmap_compose. apply list_fmap_ext. intros _ s _.
    apply sort_one_canonical; [apply sorted_Permutation|done].
Qed.

Lemma sort_vertices_canonical_witness :
  sort_vertices [([2; 0], 0%Q); ([1], 0%Q)]
  = sort_vertices [([0; 2], 0%Q); ([1], 0%Q)] ∧
  ∀ ss', sort_vertices [([2; 0], 0%Q); ([1], 0%Q)] = Ok ss' →
         sort_vertices ss' = Ok ss'.
Proof.
  apply sort_vertices_canonical.
  repeat constructor.
Defined.

Lemma faces_no_later_same_sets order order' :
  Forall2 (λ vs vs', vertex_set vs = vertex_set vs') order order' →
  faces_no_later order → faces_no_later order'.
Proof.
  intros Hsame Hcl i vs' f Hi Hf.
  destruct (Forall2_lookup_r _ _ _ _ _ Hsame Hi) as (vs & Hvs & Hset).
  assert (proper_face f vs) as Hf' by (unfold proper_face in *; by rewrite Hset).
  destruct (Hcl i vs f Hvs Hf') as (j & us & Hj & Hus & Hfset).
  destruct (Forall2_lookup_l _ _ _ _ _ Hsame Hus) as (us' & Hus' & Hset').
  exists j, us'. split_and!; [done|done|congruence].
Qed.

(** X11.  Sorting the vertices of every simplex neither breaks nor repairs
    the closure invariant. *)
Theorem sort_vertices_keeps_closure {W} (simplices simplices' : list (wsimplex W)) :
  sort_vertices simplices = Ok simplices' →
  faces_no_later simplices.*1 ↔ faces_no_later simplices'.*1.
Proof.
  rewrite sort_vertices_fmap. intros [= <-].
  split; apply faces_no_later_same_sets; rewrite <- list_fmap_compose;
    apply Forall2_fmap, Forall_Forall2_diag, Forall_forall;
    intros s _; simpl; by rewrite sorted_vertex_set.
Qed.

Lemma sort_vertices_keeps_closure_witness :
  faces_no_later [([0], 0%Q); ([1], 0%Q); ([1; 0], 0%Q)].*1 ↔
  faces_no_later [([0], 0%Q); ([1], 0%Q); ([0; 1], 0%Q)].*1.
Proof.
  apply (sort_vertices_keeps_closure [([0], 0%Q); ([1], 0%Q); ([1; 0], 0%Q)]).
  reflexivity.
Defined.

Lemma filter_fmap_invariant {A} (P : A → Prop) `{!∀ x, Decision (P x)}
    (f : A → A) (l : list A) :
  (∀ x, P (f x) ↔ P x) → filter P (f <$> l) = f <$> filter P l.
Proof.
  intros Hf. induction l as [|x l IH]; [done|].
  rewrite fmap_cons, !filter_cons.
  destruct (decide (P x)) as [Hx|Hx].
  - rewrite decide_True by by apply Hf. by rewrite fmap_cons, IH.
  - rewrite decide_False by by rewrite Hf. done.
Qed.

Lemma all_in_sort_one {W} sub (s : wsimplex W) :
  all_in sub (sort_one s).1 ↔ all_in sub s.1.
Proof. apply all_in_Permutation, sorted_Permutation. Qed.

(** X12.  When [sub] covers every vertex, sorting the vertices before the
    build and sorting them in its result give the same lists: the build
    on the sorted input returns the [L], [not_L] and [K] of the build on
    the original input with every vertex list sorted. *)
Theorem build_sort_vertices_commute {W} (sub : list bool)
    (simplices simplices' : list (wsimplex W)) :
  in_domain sub simplices →
  sort_vertices simplices = Ok simplices' →
  ∃ o o', build sub simplices = Ok o ∧ build sub simplices' = Ok o' ∧
    sort_vertices (unnumbered <$> L o) = Ok (unnumbered <$> L o') ∧
    sort_vertices (not_L o) = Ok (not_L o') ∧
    sort_vertices (unnumbered <$> K o) = Ok (unnumbered <$> K o') ∧
    entry_id <$> L o' = entry_id <$> L o ∧
    entry_id <$> K o' = entry_id <$> K o.
Proof.
  intros Hdom. rewrite sort_vertices_fmap. intros [= <-].
  assert (in_domain sub (sort_one <$> simplices)) as Hdom'.
  { unfold in_domain in *. apply Forall_fmap.
    eapply Forall_impl; [exact Hdom|]. intros s Hs. simpl.
    by rewrite sorted_Permutation. }
  assert (selected sub (sort_one <$> simplices)
          = sort_one <$> selected sub simplices) as Hsel.
  { apply (filter_fmap_invariant (λ s, all_in sub s.1)).
    apply all_in_sort_one. }
  assert (rejected sub (sort_one <$> simplices)
          = sort_one <$> rejected sub simplices) as Hrej.
  { apply (filter_fmap_invariant (λ s, ¬ all_in sub s.1)).
    intros s. by rewrite all_in_sort_one. }
  exists (build_pair_spec sub simplices),
    (build_pair_spec sub (sort_one <$> simplices)).
  split_and!; [by apply build_total..| | | | |]; simpl;
    rewrite ?unnumbered_numbered, ?sort_vertices_fmap, ?ids_numbered,
      ?Hsel, ?Hrej, ?fmap_app, ?length_app, ?length_fmap; done.
Qed.

Lemma build_sort_vertices_commute_witness :
  ∃ o o',
    build demo_sub [([1; 0], 0%Q); ([2; 0], 0%Q)] = Ok o ∧
    build demo_sub [([0; 1], 0%Q); ([0; 2], 0%Q)] = Ok o' ∧
    sort_vertices (unnumbered <$> L o) = Ok (unnumbered <$> L o') ∧
    sort_vertices (not_L o) = Ok (not_L o') ∧
    sort_vertices (unnumbered <$> K o) = Ok (unnumbered <$> K o') ∧
    entry_id <$> L o' = entry_id <$> L o ∧
    entry_id <$> K o' = entry_id <$> K o.
Proof.
  apply (build_sort_vertices_commute demo_sub).
  - unfold in_domain. repeat constructor.
  - reflexivity.
Defined.

(** ** Building [sub] *)

Lemma outside_slab_true (z_val : Q) :
  outside_slab z_val = true ↔ (9 < z_val ∨ z_val < 1)%Q.
Proof.
  unfold outside_slab. rewrite orb_true_iff, !negb_true_iff.
  rewrite <- !not_true_iff_false, !Qle_bool_iff.
  split; (intros [H|H]; [left|right]);
    first [by apply Qnot_le_lt | by apply Qlt_not_le].
Qed.

Lemma outside_slab_false (z_val : Q) :
  outside_slab z_val = false ↔ (1 <= z_val ∧ z_val <= 9)%Q.
Proof.
  rewrite <- not_true_iff_false, outside_slab_true. split.
  - intros Hno. split; apply Qnot_lt_le; tauto.
  - intros [H1 H9] [H|H]; by eapply Qlt_not_le.
Qed.

Lemma append_flag_Ok z sub i z_val :
  z !! i = Some z_val → append_flag z sub i = Ok (sub ++ [outside_slab z_val]).
Proof.
  intros Hi. unfold append_flag, getitem, mbind, result_bind. rewrite Hi.
  by destruct (outside_slab z_val).
Qed.

Lemma make_sub_loop_Ok z n k sub :
  n + k ≤ length z →
  for_each (append_flag z) (seq n k) sub
  = Ok (sub ++ (outside_slab <$> take k (drop n z))).
Proof.
  revert n sub. induction k as [|k IH]; intros n sub Hlen; simpl.
  - by rewrite app_nil_r.
  - destruct (lookup_lt_is_Some_2 z n) as [z_val Hn]; [lia|].
    rewrite (append_flag_Ok _ _ _ _ Hn). unfold mbind, result_bind.
    rewrite IH by lia. f_equal.
    rewrite (drop_S _ _ _ Hn). simpl. by rewrite <- app_assoc.
Qed.

Lemma make_sub_loop_Raise z n k sub :
  n ≤ length z → length z < n + k →
  for_each (append_flag z) (seq n k) sub = Raise IndexError.
Proof.
  revert n sub. induction k as [|k IH]; intros n sub Hn Hlen; simpl; [lia|].
  destruct (z !! n) as [z_val|] eqn:Hz.
  - rewrite (append_flag_Ok _ _ _ _ Hz). unfold mbind, result_bind.
    apply lookup_lt_Some in Hz. apply IH; lia.
  - unfold append_flag, getitem, mbind, result_bind. by rewrite Hz.
Qed.

(** X13.  With at least a hundred rows in the column, lines 10-17 build a
    [sub] of exactly a hundred entries, entry [i] being [True] when the
    coordinate of row [i] is above 9 or below 1 and [False] when it lies
    between 1 and 9; with fewer rows they raise [IndexError]. *)
Theorem make_sub_spec (z : list Q) :
  (100 ≤ length z →
     ∃ sub, make_sub z = Ok sub ∧ length sub = 100 ∧
       ∀ i z_val, i < 100 → z !! i = Some z_val →
         (sub !! i = Some true ↔ (9 < z_val ∨ z_val < 1)%Q) ∧
         (sub !! i = Some false ↔ (1 <= z_val ∧ z_val <= 9)%Q)) ∧
  (length z < 100 → make_sub z = Raise IndexError).
Proof.
  split.
  - intros Hlen. exists (outside_slab <$> take 100 z). split_and!.
    + unfold make_sub. by rewrite make_sub_loop_Ok.
    + rewrite length_fmap, length_take. lia.
    + intros i z_val Hi Hz.
      rewrite list_lookup_fmap, lookup_take_lt, Hz by done. simpl.
      rewrite <- outside_slab_true, <- outside_slab_false.
      split; split; congruence.
  - intros Hlen. unfold make_sub. apply make_sub_loop_Raise; lia.
Qed.

Lemma make_sub_spec_witness :
  (∃ sub, make_sub (replicate 100 (19 # 2)%Q) = Ok sub ∧ length sub = 100 ∧
     ∀ i z_val, i < 100 → replicate 100 (19 # 2)%Q !! i = Some z_val →
       (sub !! i = Some true ↔ (9 < z_val ∨ z_val < 1)%Q) ∧
       (sub !! i = Some false ↔ (1 <= z_val ∧ z_val <= 9)%Q)) ∧
  make_sub [0%Q; (19 # 2)%Q] = Raise IndexError.
Proof.
  split.
  - apply (make_sub_spec (replicate 100 (19 # 2)%Q)).
    rewrite length_replicate. lia.
  - apply (make_sub_spec [0%Q; (19 # 2)%Q]). simpl. lia.
Defined.

Lemma make_sub_Ok_length z sub : make_sub z = Ok sub → length sub = 100.
Proof.
  intros Hsub. destruct (decide (100 ≤ length z)) as [Hlen|Hlen].
  - unfold make_sub in Hsub. rewrite make_sub_loop_Ok in Hsub by done.
    injection Hsub as <-. rewrite drop_0, length_fmap, length_take. lia.
  - unfold make_sub in Hsub.
    rewrite make_sub_loop_Raise in Hsub by lia. done.
Qed.

(** X14.  With the [sub] of lines 10-17 and an input that satisfies the
    closure invariant, the builder returns exactly when every vertex
    identifier is below 100. *)
Theorem build_with_make_sub {W} (z : list Q) (sub : list bool)
    (simplices : list (wsimplex W)) :
  make_sub z = Ok sub →
  faces_no_later simplices.*1 →
  (∃ o, build sub simplices = Ok o) ↔
  Forall (λ s, Forall (λ v, v < 100) s.1) simplices.
Proof.
  intros Hlen%make_sub_Ok_length Hcl.
  rewrite <- Hlen. fold (in_domain sub simplices). split.
  - intros [o Ho]. destruct (decide (in_domain sub simplices)) as [|Hout];
      [done|].
    assert (build sub simplices = Raise IndexError) as Hraise
      by by apply build_Raise, closed_invalid_read.
    congruence.
  - intros Hdom. eexists. by apply build_total.
Qed.

Lemma build_with_make_sub_witness :
  (∃ o, build (replicate 100 true) demo_simplices = Ok o) ↔
  Forall (λ s : wsimplex Q, Forall (λ v, v < 100) s.1) demo_simplices.
Proof.
  apply (build_with_make_sub (replicate 100 (19 # 2)%Q)).
  - reflexivity.
  - exact demo_faces_no_later.
Defined.
